(** * Thread network topology entries (src/core/thread/topology.hpp)

    A shallow embedding of the [Neighbor], [Child] and [Router] classes of
    [namespace Thread], of the one member function the header defines
    ([Neighbor::IsStateValidOrRestoring]) and of the C++ rules for storing
    into the bit-fields these classes declare.

    The header only declares data.  The code that drives the entries (the
    attach state machine, the replay check, the child and router tables and
    the indirect sender) is not part of the sources at hand; where a property
    depends on it, the operation is written down from the specification and
    its doc comment says so. *)

From stdpp Require Import base list.
From Stdlib Require Import ZArith Lia Bool.

Local Open Scope Z_scope.

(** ** Integer storage *)

(** Assigning [v] to an unsigned bit-field (or unsigned integer) of [width]
    bits keeps the low [width] bits of [v]. *)
Definition bitfield_store (width : Z) (v : Z) : Z := v mod 2 ^ width.

Definition uint8_store (v : Z) : Z := bitfield_store 8 v.
Definition uint16_store (v : Z) : Z := bitfield_store 16 v.
Definition uint32_store (v : Z) : Z := bitfield_store 32 v.

(** The values an unsigned field of [width] bits can hold. *)
Definition fits (width : Z) (v : Z) : Prop := 0 <= v < 2 ^ width.

(** The value read from a signed bit-field of [width] bits that holds the
    bits [v]. *)
Definition bitfield_read_signed (width : Z) (v : Z) : Z :=
  if v <? 2 ^ (width - 1) then v else v - 2 ^ width.

(** ** Types the header takes from other headers *)

(** [Mac::ExtAddress] (mac/mac_frame.hpp): the bytes of an IEEE 802.15.4
    extended address. *)
Definition ExtAddress : Type := list Z.

(** [Ip6::Address] (net/ip6.hpp): the bytes of an IPv6 address. *)
Definition Ip6Address : Type := list Z.

(** [Message *] (common/message.hpp): a null pointer or the identity of a
    message buffer. *)
Definition MessagePtr : Type := option Z.

(** [LinkQualityInfo] (thread/link_quality.hpp); the header's comment names
    what it contains: average RSS, link margin and link quality. *)
Record LinkQualityInfo : Type := mkLinkQualityInfo {
  mAverageRss : Z;
  mLinkMargin : Z;
  mLinkQuality : Z
}.

(** ** class Neighbor *)

(** [enum State]; the enumerators take the values 0 to 6 in declaration
    order. *)
Inductive State : Type :=
| kStateInvalid
| kStateRestored
| kStateParentRequest
| kStateChildIdRequest
| kStateLinkRequest
| kStateChildUpdateRequest
| kStateValid.

Definition State_value (s : State) : Z :=
  match s with
  | kStateInvalid => 0
  | kStateRestored => 1
  | kStateParentRequest => 2
  | kStateChildIdRequest => 3
  | kStateLinkRequest => 4
  | kStateChildUpdateRequest => 5
  | kStateValid => 6
  end.

(** Reading an integer as a [State]: the enumerator with that value, if
    there is one. *)
Definition State_of_value (v : Z) : option State :=
  if v =? 0 then Some kStateInvalid
  else if v =? 1 then Some kStateRestored
  else if v =? 2 then Some kStateParentRequest
  else if v =? 3 then Some kStateChildIdRequest
  else if v =? 4 then Some kStateLinkRequest
  else if v =? 5 then Some kStateChildUpdateRequest
  else if v =? 6 then Some kStateValid
  else None.

#[global] Instance State_eq_dec : EqDecision State.
Proof. solve_decision. Defined.

(** The [mValid] member of the anonymous union. *)
Record ValidInfo : Type := mkValidInfo {
  mLinkFrameCounter : Z;
  mMleFrameCounter : Z;
  mRloc16 : Z
}.

(** The [mPending] member of the anonymous union. *)
Record PendingInfo : Type := mkPendingInfo {
  mChallenge : list Z;
  mChallengeLength : Z
}.

(** The anonymous union of [Neighbor].  A C++ union has at most one active
    member; the constructor records which of the two it is. *)
Inductive NeighborUnion : Type :=
| mValid (v : ValidInfo)
| mPending (p : PendingInfo).

(** [mState] is the unsigned bit-field [State mState : 3] ([enum State] has
    no negative enumerator, and under [_WIN32] its underlying type is
    spelled out as [unsigned int]), [mMode] is [uint8_t mMode : 4]. *)
Record Neighbor : Type := mkNeighbor {
  mMacAddr : ExtAddress;
  mLastHeard : Z;
  mUnion : NeighborUnion;
  mKeySequence : Z;
  mState : Z;
  mMode : Z;
  mDataRequest : bool;
  mLinkFailures : Z;
  mLinkInfo : LinkQualityInfo
}.

(** [neighbor.mState = s] *)
Definition Neighbor_set_mState (n : Neighbor) (s : State) : Neighbor :=
  mkNeighbor (mMacAddr n) (mLastHeard n) (mUnion n) (mKeySequence n)
    (bitfield_store 3 (State_value s))
    (mMode n) (mDataRequest n) (mLinkFailures n) (mLinkInfo n).

(** Reading [neighbor.mState] as a [State]. *)
Definition Neighbor_state (n : Neighbor) : option State :=
  State_of_value (mState n).

Definition Neighbor_set_mLastHeard (n : Neighbor) (t : Z) : Neighbor :=
  mkNeighbor (mMacAddr n) (uint32_store t) (mUnion n) (mKeySequence n)
    (mState n) (mMode n) (mDataRequest n) (mLinkFailures n) (mLinkInfo n).

Definition Neighbor_set_mUnion (n : Neighbor) (u : NeighborUnion) : Neighbor :=
  mkNeighbor (mMacAddr n) (mLastHeard n) u (mKeySequence n)
    (mState n) (mMode n) (mDataRequest n) (mLinkFailures n) (mLinkInfo n).

Definition Neighbor_set_mKeySequence (n : Neighbor) (k : Z) : Neighbor :=
  mkNeighbor (mMacAddr n) (mLastHeard n) (mUnion n) (uint32_store k)
    (mState n) (mMode n) (mDataRequest n) (mLinkFailures n) (mLinkInfo n).

(** [bool IsStateValidOrRestoring(void) const]: the switch over [mState]. *)
Definition IsStateValidOrRestoring (this : Neighbor) : bool :=
  if mState this =? State_value kStateValid then true
  else if mState this =? State_value kStateRestored then true
  else if mState this =? State_value kStateChildUpdateRequest then true
  else false.

(** A call of a [const] member function: the result, and the object as the
    call leaves it. *)
Definition call_const {A : Type} (f : Neighbor -> A) (this : Neighbor)
  : A * Neighbor := (f this, this).

(** ** class Router *)

Record Router : Type := mkRouter {
  router_base : Neighbor;
  mNextHop : Z;
  mLinkQualityOut : Z;
  mCost : Z;
  mAllocated : bool;
  mReclaimDelay : bool
}.

(** Stores into the members of a [Router]: [uint8_t mNextHop],
    [uint8_t mLinkQualityOut : 2], [uint8_t mCost : 4] and the two one-bit
    flags. *)
Definition Router_set_base (r : Router) (n : Neighbor) : Router :=
  mkRouter n (mNextHop r) (mLinkQualityOut r) (mCost r)
    (mAllocated r) (mReclaimDelay r).

Definition Router_set_mNextHop (r : Router) (v : Z) : Router :=
  mkRouter (router_base r) (uint8_store v) (mLinkQualityOut r) (mCost r)
    (mAllocated r) (mReclaimDelay r).

Definition Router_set_mLinkQualityOut (r : Router) (v : Z) : Router :=
  mkRouter (router_base r) (mNextHop r) (bitfield_store 2 v) (mCost r)
    (mAllocated r) (mReclaimDelay r).

Definition Router_set_mCost (r : Router) (v : Z) : Router :=
  mkRouter (router_base r) (mNextHop r) (mLinkQualityOut r)
    (bitfield_store 4 v) (mAllocated r) (mReclaimDelay r).

Definition Router_set_mAllocated (r : Router) (b : bool) : Router :=
  mkRouter (router_base r) (mNextHop r) (mLinkQualityOut r) (mCost r)
    b (mReclaimDelay r).

Definition Router_set_mReclaimDelay (r : Router) (b : bool) : Router :=
  mkRouter (router_base r) (mNextHop r) (mLinkQualityOut r) (mCost r)
    (mAllocated r) b.

(** Modelled from the spec: the path cost of section 4.3, the sum of the
    cost of the own link and the cost the next hop advertises, capped at the
    4-bit maximum 15; the routing code is not part of the header. *)
Definition path_cost (linkCost nextHopCost : Z) : Z :=
  Z.min 15 (linkCost + nextHopCost).

(** One store into a [Router], and a sequence of them. *)
Inductive RouterStore : Type :=
| StoreBase (n : Neighbor)
| StoreNextHop (v : Z)
| StoreLinkQualityOut (v : Z)
| StoreCost (v : Z)
| StoreAllocated (b : bool)
| StoreReclaimDelay (b : bool).

Definition Router_store (r : Router) (op : RouterStore) : Router :=
  match op with
  | StoreBase n => Router_set_base r n
  | StoreNextHop v => Router_set_mNextHop r v
  | StoreLinkQualityOut v => Router_set_mLinkQualityOut r v
  | StoreCost v => Router_set_mCost r v
  | StoreAllocated b => Router_set_mAllocated r b
  | StoreReclaimDelay b => Router_set_mReclaimDelay r b
  end.

Definition Router_stores (r : Router) (ops : list RouterStore) : Router :=
  foldl Router_store r ops.

(** The bit-fields of a [Router] object hold values of their declared
    widths. *)
Definition Router_fields_fit (r : Router) : Prop :=
  fits 2 (mLinkQualityOut r) /\ fits 4 (mCost r).

(** ** class Child *)

(** [Child::mIndirectSendInfo]: the one slot for the current outbound
    indirect message. *)
Record IndirectSendInfo : Type := mkIndirectSendInfo {
  mFrameCounter : Z;
  mMessage : MessagePtr;
  mFragmentOffset : Z;
  mKeyId : Z;
  mTxAttemptCounter : Z;
  mDataSequenceNumber : Z
}.

(** The anonymous union of [Child]. *)
Inductive ChildUnion : Type :=
| mRequestTlvs (tlvs : list Z)
| mAttachChallenge (challenge : list Z).

(** [mIp6Address] is an array of [kMaxIp6AddressPerChild] addresses; the
    list holds its elements, in array order. *)
Record Child : Type := mkChild {
  child_base : Neighbor;
  mIp6Address : list Ip6Address;
  mTimeout : Z;
  mIndirectSendInfo : IndirectSendInfo;
  mChildUnion : ChildUnion;
  mNetworkDataVersion : Z;
  mQueuedIndirectMessageCnt : Z;
  mAddSrcMatchEntryShort : bool;
  mAddSrcMatchEntryPending : bool
}.

Definition Child_set_base (c : Child) (n : Neighbor) : Child :=
  mkChild n (mIp6Address c) (mTimeout c) (mIndirectSendInfo c) (mChildUnion c)
    (mNetworkDataVersion c) (mQueuedIndirectMessageCnt c)
    (mAddSrcMatchEntryShort c) (mAddSrcMatchEntryPending c).

Definition Child_set_mIp6Address (c : Child) (a : list Ip6Address) : Child :=
  mkChild (child_base c) a (mTimeout c) (mIndirectSendInfo c) (mChildUnion c)
    (mNetworkDataVersion c) (mQueuedIndirectMessageCnt c)
    (mAddSrcMatchEntryShort c) (mAddSrcMatchEntryPending c).

Definition Child_set_mIndirectSendInfo (c : Child) (i : IndirectSendInfo) : Child :=
  mkChild (child_base c) (mIp6Address c) (mTimeout c) i (mChildUnion c)
    (mNetworkDataVersion c) (mQueuedIndirectMessageCnt c)
    (mAddSrcMatchEntryShort c) (mAddSrcMatchEntryPending c).

(** [uint16_t mQueuedIndirectMessageCnt] *)
Definition Child_set_mQueuedIndirectMessageCnt (c : Child) (v : Z) : Child :=
  mkChild (child_base c) (mIp6Address c) (mTimeout c) (mIndirectSendInfo c)
    (mChildUnion c) (mNetworkDataVersion c) (uint16_store v)
    (mAddSrcMatchEntryShort c) (mAddSrcMatchEntryPending c).

(** ** Access to the members of the Neighbor union *)

(** Reading a member of the union is defined only while that member is the
    active one. *)
Definition Neighbor_mValid (n : Neighbor) : option ValidInfo :=
  match mUnion n with
  | mValid v => Some v
  | mPending _ => None
  end.

Definition Neighbor_mPending (n : Neighbor) : option PendingInfo :=
  match mUnion n with
  | mValid _ => None
  | mPending p => Some p
  end.

(** [neighbor.mValid = {link, mle, rloc16}]: two [uint32_t] and one
    [uint16_t]. *)
Definition store_ValidInfo (v : ValidInfo) : NeighborUnion :=
  mValid (mkValidInfo (uint32_store (mLinkFrameCounter v))
            (uint32_store (mMleFrameCounter v))
            (uint16_store (mRloc16 v))).

(** ** Error kinds *)

(** Modelled from the spec: the error kinds of the topology core (section 7);
    the header declares no error type. *)
Inductive Error : Type :=
| TableFull
| NotFound
| ReplayRejected
| InvalidStateAccess
| QueueOverflow
| RetryExhausted.

(** ** The neighbor state machine *)

Module AttachFsm.

(** Modelled from the spec: the triggers that move a Neighbor between its
    states (sections 4.1 and 6); the code that assigns [mState] is not part
    of the header.  [BeginAttach] is the first handshake message,
    [ProgressAttach] the next step of the child attach, [CompleteAttach]
    the successful completion or re-verification, [Invalidate] the
    timeout, rejection or link-failure demotion, [Reverify] the proactive
    child update and [Restore] the load from persisted state. *)
Inductive Event : Type :=
| BeginAttach (target : State) (challenge : PendingInfo)
| ProgressAttach
| CompleteAttach (attached : ValidInfo)
| Invalidate
| Reverify
| Restore (attached : ValidInfo).

(** Modelled from the spec: the transition rules of section 4.1.
    Invalid -> ParentRequest | LinkRequest with the challenge stored;
    ParentRequest -> ChildIdRequest;
    ChildIdRequest | LinkRequest | Restored -> Valid, the verification step
    that stores the frame counters and the RLOC16;
    any state -> Invalid; Valid -> ChildUpdateRequest;
    Invalid -> Restored with the persisted attached payload.
    [None] when the rules have no transition for the event in the current
    state. *)
Definition transition (n : Neighbor) (e : Event) : option Neighbor :=
  match e, Neighbor_state n with
  | BeginAttach kStateParentRequest ch, Some kStateInvalid =>
      Some (Neighbor_set_mState (Neighbor_set_mUnion n (mPending ch))
              kStateParentRequest)
  | BeginAttach kStateLinkRequest ch, Some kStateInvalid =>
      Some (Neighbor_set_mState (Neighbor_set_mUnion n (mPending ch))
              kStateLinkRequest)
  | ProgressAttach, Some kStateParentRequest =>
      Some (Neighbor_set_mState n kStateChildIdRequest)
  | CompleteAttach v, Some kStateChildIdRequest
  | CompleteAttach v, Some kStateLinkRequest
  | CompleteAttach v, Some kStateRestored =>
      Some (Neighbor_set_mState (Neighbor_set_mUnion n (store_ValidInfo v))
              kStateValid)
  | Invalidate, _ =>
      Some (Neighbor_set_mState n kStateInvalid)
  | Reverify, Some kStateValid =>
      Some (Neighbor_set_mState n kStateChildUpdateRequest)
  | Restore v, Some kStateInvalid =>
      Some (Neighbor_set_mState (Neighbor_set_mUnion n (store_ValidInfo v))
              kStateRestored)
  | _, _ => None
  end.

(** Modelled from the spec: section 4.1 names no other transition, so an
    event that has none in the current state leaves the entry as it is. *)
Definition step (n : Neighbor) (e : Event) : Neighbor :=
  default n (transition n e).

(** The entry after a sequence of events. *)
Definition run (n : Neighbor) (es : list Event) : Neighbor :=
  foldl step n es.

(** Modelled from the spec: the invariant of section 3 that ties a member
    of the union to each state: Valid, Restored, ChildUpdateRequest to the
    attached payload, ParentRequest, ChildIdRequest, LinkRequest to the
    pending payload. *)
Definition payload_matches_state (n : Neighbor) : Prop :=
  match Neighbor_state n with
  | Some kStateValid | Some kStateRestored | Some kStateChildUpdateRequest =>
      is_Some (Neighbor_mValid n)
  | Some kStateParentRequest | Some kStateChildIdRequest
  | Some kStateLinkRequest =>
      is_Some (Neighbor_mPending n)
  | Some kStateInvalid | None => True
  end.

End AttachFsm.

(** ** Replay protection *)

Module Replay.

(** Modelled from the spec: the two frame classes of section 4.5, each
    checked against its own counter. *)
Inductive FrameClass : Type := LinkFrame | MleFrame.

(** Modelled from the spec: what a received secured frame presents to the
    check of section 4.5: its class, its frame counter and the key sequence
    it was secured under. *)
Record Frame : Type := mkFrame {
  fClass : FrameClass;
  fCounter : Z;
  fKeySequence : Z
}.

(** Modelled from the spec: the outcome of the check, acceptance or one of
    the error kinds of section 7. *)
Inductive Verdict : Type :=
| Accepted
| Rejected (e : Error).

(** The stored counter a frame of class [cls] is compared with. *)
Definition stored_counter (cls : FrameClass) (v : ValidInfo) : Z :=
  match cls with
  | LinkFrame => mLinkFrameCounter v
  | MleFrame => mMleFrameCounter v
  end.

(** [mValid.mLinkFrameCounter = c] or [mValid.mMleFrameCounter = c]. *)
Definition replace_counter (cls : FrameClass) (c : Z) (v : ValidInfo)
  : ValidInfo :=
  match cls with
  | LinkFrame => mkValidInfo (uint32_store c) (mMleFrameCounter v) (mRloc16 v)
  | MleFrame => mkValidInfo (mLinkFrameCounter v) (uint32_store c) (mRloc16 v)
  end.

(** Modelled from the spec: the effect of an authentic frame (sections 3
    and 4.5): its counter becomes the stored one and [mLastHeard] is the
    time of this frame. *)
Definition accept (now : Z) (f : Frame) (v : ValidInfo) (n : Neighbor)
  : Neighbor :=
  Neighbor_set_mLastHeard
    (Neighbor_set_mUnion n (mValid (replace_counter (fClass f) (fCounter f) v)))
    now.

(** Modelled from the spec: the frame counter check of section 4.5, which
    the header has no code for.  The presented counter must be strictly
    greater than the stored counter of the frame's class; after a key
    sequence rollover (the frame's key sequence is not the one the peer was
    last validated against) the stored value is replaced rather than
    compared; a counter at or below the stored value is rejected as a
    replay with the entry unmodified (section 7, ReplayRejected).  Reading
    the counters of an entry that is not attached is the contract
    violation InvalidStateAccess. *)
Definition Receive (now : Z) (f : Frame) (n : Neighbor) : Verdict * Neighbor :=
  if IsStateValidOrRestoring n then
    match Neighbor_mValid n with
    | Some v =>
        if negb (fKeySequence f =? mKeySequence n) then
          (Accepted, Neighbor_set_mKeySequence (accept now f v n) (fKeySequence f))
        else if stored_counter (fClass f) v <? fCounter f then
          (Accepted, accept now f v n)
        else
          (Rejected ReplayRejected, n)
    | None => (Rejected InvalidStateAccess, n)
    end
  else (Rejected InvalidStateAccess, n).

End Replay.

(** ** Indirect (buffered) message delivery *)

Module IndirectSender.

(** Modelled from the spec: the device's current security frame counter
    and key id, snapshotted when a message becomes the in-flight one
    (section 4.4). *)
Record Security : Type := mkSecurity {
  secFrameCounter : Z;
  secKeyId : Z
}.

(** Modelled from the spec: the events of the delivery protocol of
    section 4.4: a message for the child is handed over, the child polls, a
    transmission completes. *)
Inductive Event : Type :=
| Enqueue (m : Z) (sec : Security)
| DataPoll (dsn : Z)
| TxDone (success : bool) (sec : Security).

(** Modelled from the spec: what a step of the protocol reports: the
    message was taken over or refused (section 6, ownership of the buffer),
    it was put on the air, it was delivered, it was dropped after the last
    retry. *)
Inductive Output : Type :=
| Taken (m : Z)
| Refused (m : Z) (e : Error)
| Transmit (m : Z) (frameCounter fragmentOffset keyId dsn : Z)
| Delivered (m : Z)
| Dropped (m : Z) (e : Error).

(** Modelled from the spec: a child together with the messages queued for
    it behind the in-flight one, oldest first (section 4.4).  The [Child]
    object itself holds only their count. *)
Record Sender : Type := mkSender {
  sChild : Child;
  sQueue : list Z
}.

(** [child.mIndirectSendInfo.mMessage] *)
Definition in_flight (c : Child) : MessagePtr :=
  mMessage (mIndirectSendInfo c).

(** Modelled from the spec: [m] becomes the current indirect message
    (section 4.4): frame counter and key id are snapshotted, attempt counter
    and fragment offset start at zero. *)
Definition set_in_flight (c : Child) (m : Z) (sec : Security) : Child :=
  Child_set_mIndirectSendInfo c
    (mkIndirectSendInfo (uint32_store (secFrameCounter sec)) (Some m) 0
       (uint8_store (secKeyId sec)) 0
       (mDataSequenceNumber (mIndirectSendInfo c))).

(** Modelled from the spec: the in-flight slot is cleared (section 4.4). *)
Definition clear_in_flight (c : Child) : Child :=
  let i := mIndirectSendInfo c in
  Child_set_mIndirectSendInfo c
    (mkIndirectSendInfo (mFrameCounter i) None 0 (mKeyId i) 0
       (mDataSequenceNumber i)).

(** [child.mIndirectSendInfo.mTxAttemptCounter = a], a [uint8_t]. *)
Definition set_attempts (c : Child) (a : Z) : Child :=
  let i := mIndirectSendInfo c in
  Child_set_mIndirectSendInfo c
    (mkIndirectSendInfo (mFrameCounter i) (mMessage i) (mFragmentOffset i)
       (mKeyId i) (uint8_store a) (mDataSequenceNumber i)).

(** [child.mIndirectSendInfo.mDataSequenceNumber = dsn], a [uint8_t]. *)
Definition set_dsn (c : Child) (dsn : Z) : Child :=
  let i := mIndirectSendInfo c in
  Child_set_mIndirectSendInfo c
    (mkIndirectSendInfo (mFrameCounter i) (mMessage i) (mFragmentOffset i)
       (mKeyId i) (mTxAttemptCounter i) (uint8_store dsn)).

(** Modelled from the spec: the promotion of section 4.4: the in-flight
    slot is given up and the oldest queued message, if any, takes it, with
    the count going down by one. *)
Definition promote (sec : Security) (s : Sender) : Sender :=
  match sQueue s with
  | [] => mkSender (clear_in_flight (sChild s)) []
  | m :: q =>
      mkSender
        (Child_set_mQueuedIndirectMessageCnt
           (set_in_flight (sChild s) m sec)
           (mQueuedIndirectMessageCnt (sChild s) - 1))
        q
  end.

Section Config.

(** The retry cap and the per-child queue depth are configuration the
    header does not define. *)
Variable kRetryCap : Z.
Variable kQueueDepth : Z.

(** Modelled from the spec: the indirect delivery protocol of section 4.4
    (with QueueOverflow and RetryExhausted of section 7 and the retry cap
    of section 8); the sender itself is not part of the header.
    (1) An enqueued message becomes the in-flight one, or, if a message
    is already in flight, joins the queue and the count goes up; beyond
    the queue depth it is refused.  (2) On a data poll the in-flight
    message is transmitted with the snapshotted counter, the fragment
    offset and a fresh sequence number.  (3) On transmit-complete,
    success clears the slot and promotes the next queued message; a
    failure increments the attempt counter and leaves the message in
    flight while the counter stays within the cap, else the message is
    dropped and the next one promoted. *)
Definition step (s : Sender) (e : Event) : Sender * list Output :=
  let c := sChild s in
  match e with
  | Enqueue m sec =>
      match in_flight c with
      | None => (mkSender (set_in_flight c m sec) (sQueue s), [Taken m])
      | Some _ =>
          if mQueuedIndirectMessageCnt c <? kQueueDepth then
            (mkSender
               (Child_set_mQueuedIndirectMessageCnt c
                  (mQueuedIndirectMessageCnt c + 1))
               (sQueue s ++ [m]),
             [Taken m])
          else (s, [Refused m QueueOverflow])
      end
  | DataPoll dsn =>
      match in_flight c with
      | None => (s, [])
      | Some m =>
          let c' := set_dsn c dsn in
          let i := mIndirectSendInfo c' in
          (mkSender c' (sQueue s),
           [Transmit m (mFrameCounter i) (mFragmentOffset i) (mKeyId i)
              (mDataSequenceNumber i)])
      end
  | TxDone true sec =>
      match in_flight c with
      | None => (s, [])
      | Some m => (promote sec s, [Delivered m])
      end
  | TxDone false sec =>
      match in_flight c with
      | None => (s, [])
      | Some m =>
          let c' := set_attempts c (mTxAttemptCounter (mIndirectSendInfo c) + 1) in
          if mTxAttemptCounter (mIndirectSendInfo c') <=? kRetryCap then
            (mkSender c' (sQueue s), [])
          else (promote sec s, [Dropped m RetryExhausted])
      end
  end.

(** A run of the protocol and everything it reports, in order. *)
Fixpoint run (s : Sender) (es : list Event) : Sender * list Output :=
  match es with
  | [] => (s, [])
  | e :: es' =>
      let '(s1, out1) := step s e in
      let '(s2, out2) := run s1 es' in
      (s2, out1 ++ out2)
  end.

End Config.

(** The messages a log shows as taken over, and those it shows as finished
    (delivered, or dropped after the last retry), each in log order. *)
Definition taken (log : list Output) : list Z :=
  omap (fun o => match o with Taken m => Some m | _ => None end) log.

Definition finished (log : list Output) : list Z :=
  omap (fun o => match o with
                 | Delivered m => Some m
                 | Dropped m _ => Some m
                 | _ => None
                 end) log.

(** The messages held for the child: the in-flight one, then the queue. *)
Definition held (s : Sender) : list Z :=
  match in_flight (sChild s) with
  | Some m => m :: sQueue s
  | None => sQueue s
  end.

(** Nothing is queued behind an empty in-flight slot. *)
Definition idle_empty (s : Sender) : Prop :=
  in_flight (sChild s) = None -> sQueue s = [].

(** The count member agrees with the queue, and nothing is queued behind
    an empty in-flight slot. *)
Definition consistent (s : Sender) : Prop :=
  mQueuedIndirectMessageCnt (sChild s) = Z.of_nat (length (sQueue s)) /\
  fits 16 (mQueuedIndirectMessageCnt (sChild s)) /\
  idle_empty s.

End IndirectSender.

(** ** The topology table *)

Module TopologyTable.

(** Modelled from the spec: the kinds of entry the table allocates
    (section 4.2). *)
Inductive Kind : Type := KindChild | KindRouter.

(** Modelled from the spec: a slot of the child pool: whether it is taken, and the entry it
    stores.  ([Router] carries its own [mAllocated] flag, [Child] has
    none.) *)
Record ChildSlot : Type := mkChildSlot {
  slotTaken : bool;
  slotChild : Child
}.

(** Modelled from the spec: the fixed-capacity collections of child and
    router entries the table owns (section 4.2). *)
Record Table : Type := mkTable {
  mChildren : list ChildSlot;
  mRouters : list Router
}.

(** Modelled from the spec: a child slot is free when it is not taken. *)
Definition child_slot_free (cs : ChildSlot) : Prop := slotTaken cs = false.

(** Modelled from the spec: a router slot is free when it is neither
    allocated nor waiting to be reclaimed (section 3, [allocated] and
    [reclaimDelay]). *)
Definition router_slot_free (r : Router) : Prop :=
  mAllocated r = false /\ mReclaimDelay r = false.

#[global] Instance child_slot_free_dec (cs : ChildSlot) :
  Decision (child_slot_free cs).
Proof. unfold child_slot_free. apply _. Defined.

#[global] Instance router_slot_free_dec (r : Router) :
  Decision (router_slot_free r).
Proof. unfold router_slot_free. apply _. Defined.

(** No slot of kind [k] is free. *)
Definition no_free_slot (k : Kind) (t : Table) : Prop :=
  match k with
  | KindChild => Forall (fun cs => ~ child_slot_free cs) (mChildren t)
  | KindRouter => Forall (fun r => ~ router_slot_free r) (mRouters t)
  end.

(** Modelled from the spec: the entry goes to state Invalid; a child entry
    also gives up its in-flight and queued indirect messages (section 5,
    cancellation). *)
Definition invalidated_child (c : Child) : Child :=
  Child_set_mQueuedIndirectMessageCnt
    (IndirectSender.clear_in_flight
       (Child_set_base c (Neighbor_set_mState (child_base c) kStateInvalid)))
    0.

(** Modelled from the spec: the router entry goes to state Invalid. *)
Definition invalidated_router (r : Router) : Router :=
  Router_set_base r (Neighbor_set_mState (router_base r) kStateInvalid).

(** Modelled from the spec: [Allocate(kind)] of section 4.2, the table not
    being part of the header.  The first free slot of the kind is taken and
    its entry handed out in state Invalid; with no free slot the result is
    TableFull and nothing is evicted. *)
Definition Allocate (k : Kind) (t : Table) : (Error + nat) * Table :=
  match k with
  | KindChild =>
      match list_find child_slot_free (mChildren t) with
      | Some (i, cs) =>
          (inr i,
           mkTable
             (<[i := mkChildSlot true (invalidated_child (slotChild cs))]>
                (mChildren t))
             (mRouters t))
      | None => (inl TableFull, t)
      end
  | KindRouter =>
      match list_find router_slot_free (mRouters t) with
      | Some (i, r) =>
          (inr i,
           mkTable (mChildren t)
             (<[i := Router_set_mAllocated (invalidated_router r) true]>
                (mRouters t)))
      | None => (inl TableFull, t)
      end
  end.

(** Modelled from the spec: [Release(entry)] of section 4.2.  A child slot
    returns to the free pool at once; a router slot is vacated but held
    back: [mAllocated] is cleared and [mReclaimDelay] set.  Releasing a slot
    that is not taken changes nothing. *)
Definition Release (k : Kind) (i : nat) (t : Table) : Table :=
  match k with
  | KindChild =>
      match mChildren t !! i with
      | Some cs =>
          if slotTaken cs then
            mkTable
              (<[i := mkChildSlot false (invalidated_child (slotChild cs))]>
                 (mChildren t))
              (mRouters t)
          else t
      | None => t
      end
  | KindRouter =>
      match mRouters t !! i with
      | Some r =>
          if mAllocated r then
            mkTable (mChildren t)
              (<[i := Router_set_mReclaimDelay
                        (Router_set_mAllocated (invalidated_router r) false)
                        true]>
                 (mRouters t))
          else t
      | None => t
      end
  end.

(** Modelled from the spec: the end of a router slot's reclaim delay
    (sections 3 and 4.2), signalled by the timer; [mReclaimDelay] is
    cleared and the slot becomes eligible for reallocation. *)
Definition ReclaimDelayElapsed (i : nat) (t : Table) : Table :=
  match mRouters t !! i with
  | Some r =>
      mkTable (mChildren t)
        (<[i := Router_set_mReclaimDelay r false]> (mRouters t))
  | None => t
  end.

(** Modelled from the spec: the operations of section 4.2 on the table,
    with the end of a reclaim delay, and what each returns. *)
Inductive Op : Type :=
| OpAllocate (k : Kind)
| OpRelease (k : Kind) (i : nat)
| OpReclaimDelayElapsed (i : nat).

Inductive Result : Type :=
| Allocated (k : Kind) (i : nat)
| Failed (e : Error)
| Done.

(** One operation on the table: the table after it and its result. *)
Definition perform (t : Table) (op : Op) : Table * Result :=
  match op with
  | OpAllocate k =>
      match Allocate k t with
      | (inr i, t') => (t', Allocated k i)
      | (inl e, t') => (t', Failed e)
      end
  | OpRelease k i => (Release k i t, Done)
  | OpReclaimDelayElapsed i => (ReclaimDelayElapsed i t, Done)
  end.

(** A sequence of operations and their results, in order. *)
Fixpoint run (t : Table) (ops : list Op) : Table * list Result :=
  match ops with
  | [] => (t, [])
  | op :: ops' =>
      let '(t1, r) := perform t op in
      let '(t2, rs) := run t1 ops' in
      (t2, r :: rs)
  end.

(** Router slot [i] is vacated and still held back. *)
Definition reclaiming (t : Table) (i : nat) : Prop :=
  exists r, mRouters t !! i = Some r /\
            mAllocated r = false /\ mReclaimDelay r = true.

End TopologyTable.

(** ** The address array of a child *)

(** [child.mIp6Address[i] = a].  The array has the elements of the list; an
    index outside the array is undefined in C++ and gives [None]. *)
Definition Child_store_address (c : Child) (i : nat) (a : Ip6Address)
  : option Child :=
  if decide (i < length (mIp6Address c))%nat
  then Some (Child_set_mIp6Address c (<[i:=a]> (mIp6Address c)))
  else None.

(** A sequence of such assignments; [None] as soon as one of them is
    outside the array. *)
Fixpoint Child_store_addresses (c : Child) (ws : list (nat * Ip6Address))
  : option Child :=
  match ws with
  | [] => Some c
  | (i, a) :: ws' =>
      match Child_store_address c i a with
      | Some c' => Child_store_addresses c' ws'
      | None => None
      end
  end.

(** ** Stores into the members of a Neighbor *)

(** The remaining members: [uint8_t mMode : 4], [bool mDataRequest : 1],
    [uint8_t mLinkFailures], the address and the link quality record. *)
Definition Neighbor_set_mMacAddr (n : Neighbor) (a : ExtAddress) : Neighbor :=
  mkNeighbor a (mLastHeard n) (mUnion n) (mKeySequence n)
    (mState n) (mMode n) (mDataRequest n) (mLinkFailures n) (mLinkInfo n).

Definition Neighbor_set_mMode (n : Neighbor) (v : Z) : Neighbor :=
  mkNeighbor (mMacAddr n) (mLastHeard n) (mUnion n) (mKeySequence n)
    (mState n) (bitfield_store 4 v) (mDataRequest n) (mLinkFailures n)
    (mLinkInfo n).

Definition Neighbor_set_mDataRequest (n : Neighbor) (b : bool) : Neighbor :=
  mkNeighbor (mMacAddr n) (mLastHeard n) (mUnion n) (mKeySequence n)
    (mState n) (mMode n) b (mLinkFailures n) (mLinkInfo n).

Definition Neighbor_set_mLinkFailures (n : Neighbor) (v : Z) : Neighbor :=
  mkNeighbor (mMacAddr n) (mLastHeard n) (mUnion n) (mKeySequence n)
    (mState n) (mMode n) (mDataRequest n) (uint8_store v) (mLinkInfo n).

Definition Neighbor_set_mLinkInfo (n : Neighbor) (i : LinkQualityInfo)
  : Neighbor :=
  mkNeighbor (mMacAddr n) (mLastHeard n) (mUnion n) (mKeySequence n)
    (mState n) (mMode n) (mDataRequest n) (mLinkFailures n) i.

(** One assignment to a public member of a [Neighbor], and a sequence of
    them.  [mState] is assigned enumerators of [State]. *)
Inductive NeighborStore : Type :=
| StoreMacAddr (a : ExtAddress)
| StoreLastHeard (t : Z)
| StoreUnion (u : NeighborUnion)
| StoreKeySequence (k : Z)
| StoreState (s : State)
| StoreMode (v : Z)
| StoreDataRequest (b : bool)
| StoreLinkFailures (v : Z)
| StoreLinkInfo (i : LinkQualityInfo).

Definition Neighbor_store (n : Neighbor) (op : NeighborStore) : Neighbor :=
  match op with
  | StoreMacAddr a => Neighbor_set_mMacAddr n a
  | StoreLastHeard t => Neighbor_set_mLastHeard n t
  | StoreUnion u => Neighbor_set_mUnion n u
  | StoreKeySequence k => Neighbor_set_mKeySequence n k
  | StoreState s => Neighbor_set_mState n s
  | StoreMode v => Neighbor_set_mMode n v
  | StoreDataRequest b => Neighbor_set_mDataRequest n b
  | StoreLinkFailures v => Neighbor_set_mLinkFailures n v
  | StoreLinkInfo i => Neighbor_set_mLinkInfo n i
  end.

Definition Neighbor_stores (n : Neighbor) (ops : list NeighborStore)
  : Neighbor := foldl Neighbor_store n ops.

(** Whether the assignment is one to [mState]. *)
Definition stores_state (op : NeighborStore) : bool :=
  match op with
  | StoreState _ => true
  | _ => false
  end.

(** The answer of the switch of [IsStateValidOrRestoring] for an
    enumerator. *)
Definition valid_or_restoring (s : State) : bool :=
  match s with
  | kStateValid | kStateRestored | kStateChildUpdateRequest => true
  | _ => false
  end.

(** The integer members of a [Neighbor] hold values of their declared
    widths. *)
Definition Neighbor_fields_fit (n : Neighbor) : Prop :=
  fits 32 (mLastHeard n) /\ fits 32 (mKeySequence n) /\
  fits 3 (mState n) /\ fits 4 (mMode n) /\ fits 8 (mLinkFailures n).

(** ** Sample objects *)

Definition sample_link_info : LinkQualityInfo := mkLinkQualityInfo (-60) 40 3.

Definition sample_neighbor (s : State) (u : NeighborUnion) : Neighbor :=
  mkNeighbor [0x02; 0x11; 0x22; 0x33; 0x44; 0x55; 0x66; 0x77] 1000 u 7
    (bitfield_store 3 (State_value s)) 0xf false 0 sample_link_info.

Definition sample_valid_info : ValidInfo := mkValidInfo 100 50 0x4401.
Definition sample_pending_info : PendingInfo :=
  mkPendingInfo [1; 2; 3; 4; 5; 6; 7; 8] 8.

Definition sample_router : Router :=
  mkRouter (sample_neighbor kStateValid (mValid sample_valid_info)) 17 3 15 true false.

Definition sample_attach_run : list AttachFsm.Event :=
  [AttachFsm.BeginAttach kStateParentRequest sample_pending_info;
   AttachFsm.ProgressAttach;
   AttachFsm.CompleteAttach sample_valid_info;
   AttachFsm.Reverify].

(** A sleepy child with nothing in flight and nothing queued. *)
Definition sample_child : Child :=
  mkChild (sample_neighbor kStateValid (mValid sample_valid_info))
    [] 240 (mkIndirectSendInfo 0 None 0 0 0 0) (mRequestTlvs [])
    3 0 false false.

Definition sample_sender : IndirectSender.Sender :=
  IndirectSender.mkSender sample_child [].

Definition sample_security : IndirectSender.Security :=
  IndirectSender.mkSecurity 5000 1.

(** Two messages are handed over; the first fails once, is retried and
    delivered, then the second is put on the air. *)
Definition sample_delivery : list IndirectSender.Event :=
  [IndirectSender.Enqueue 11 sample_security;
   IndirectSender.Enqueue 12 sample_security;
   IndirectSender.DataPoll 1;
   IndirectSender.TxDone false sample_security;
   IndirectSender.DataPoll 2;
   IndirectSender.TxDone true sample_security;
   IndirectSender.DataPoll 3].

(** A table of two child slots and two router slots, all taken. *)
Definition sample_table : TopologyTable.Table :=
  TopologyTable.mkTable
    [TopologyTable.mkChildSlot true sample_child;
     TopologyTable.mkChildSlot true sample_child]
    [sample_router; sample_router].

Definition sample_address (last : Z) : Ip6Address :=
  [0xfd; 0; 0; 0; 0; 0; 0; 0; 0; 0; 0; 0; 0; 0; 0; last].

(** A child whose address array has two elements, both still the
    unspecified address. *)
Definition sample_child_addresses : Child :=
  Child_set_mIp6Address sample_child [replicate 16 0; replicate 16 0].

(** * Properties *)

(** ** Bit-field stores *)

Lemma bitfield_store_fits (w v : Z) : 0 <= w -> fits w (bitfield_store w v).
Proof.
  intros Hw. unfold fits, bitfield_store.
  apply Z.mod_pos_bound. apply Z.pow_pos_nonneg; lia.
Qed.

Lemma bitfield_store_id (w v : Z) : fits w v -> bitfield_store w v = v.
Proof. intros Hv. unfold bitfield_store. apply Z.mod_small. exact Hv. Qed.

Lemma State_value_range (s : State) : 0 <= State_value s <= 6.
Proof. destruct s; simpl; lia. Qed.

Lemma State_of_value_value (s : State) : State_of_value (State_value s) = Some s.
Proof. destruct s; reflexivity. Qed.

Lemma State_of_value_Some (v : Z) (s : State) :
  State_of_value v = Some s -> v = State_value s.
Proof.
  unfold State_of_value.
  repeat match goal with
         | |- context [v =? ?k] =>
             destruct (Z.eqb_spec v k) as [->|_];
             [intros H; injection H as <-; reflexivity|]
         end.
  discriminate.
Qed.

(** ** Neighbor::IsStateValidOrRestoring *)

Lemma IsStateValidOrRestoring_true (n : Neighbor) :
  IsStateValidOrRestoring n = true <->
  mState n = 6 \/ mState n = 1 \/ mState n = 5.
Proof.
  unfold IsStateValidOrRestoring. simpl State_value.
  destruct (Z.eqb_spec (mState n) 6); [intuition|].
  destruct (Z.eqb_spec (mState n) 1); [intuition|].
  destruct (Z.eqb_spec (mState n) 5); [intuition|].
  split; [discriminate | lia].
Qed.

Lemma Neighbor_state_Some (n : Neighbor) (s : State) :
  Neighbor_state n = Some s <-> mState n = State_value s.
Proof.
  unfold Neighbor_state. split.
  - apply State_of_value_Some.
  - intros ->. apply State_of_value_value.
Qed.

(** C1. [IsStateValidOrRestoring] returns true exactly when the neighbor's
    state is [kStateValid], [kStateRestored] or [kStateChildUpdateRequest];
    in each of the states [kStateInvalid], [kStateParentRequest],
    [kStateChildIdRequest] and [kStateLinkRequest] it returns false. *)
Theorem IsStateValidOrRestoring_spec (n : Neighbor) :
  (IsStateValidOrRestoring n = true <->
     Neighbor_state n = Some kStateValid \/
     Neighbor_state n = Some kStateRestored \/
     Neighbor_state n = Some kStateChildUpdateRequest) /\
  (Neighbor_state n = Some kStateInvalid \/
   Neighbor_state n = Some kStateParentRequest \/
   Neighbor_state n = Some kStateChildIdRequest \/
   Neighbor_state n = Some kStateLinkRequest ->
   IsStateValidOrRestoring n = false).
Proof.
  rewrite !Neighbor_state_Some, IsStateValidOrRestoring_true. simpl State_value.
  split; [reflexivity|].
  intros H. apply not_true_is_false. rewrite IsStateValidOrRestoring_true. lia.
Qed.

Lemma IsStateValidOrRestoring_spec_witness :
  IsStateValidOrRestoring
    (sample_neighbor kStateParentRequest (mPending sample_pending_info)) = false
  /\ IsStateValidOrRestoring
       (sample_neighbor kStateRestored (mValid sample_valid_info)) = true.
Proof.
  split.
  - apply (proj2 (IsStateValidOrRestoring_spec
                    (sample_neighbor kStateParentRequest (mPending sample_pending_info)))).
    right; left; reflexivity.
  - apply (proj1 (IsStateValidOrRestoring_spec
                    (sample_neighbor kStateRestored (mValid sample_valid_info)))).
    right; left; reflexivity.
Defined.

(** C9. The result of [IsStateValidOrRestoring] is a function of [mState]
    alone: two neighbors with equal [mState] get the same answer whatever
    their other members hold, and the call leaves the object as it was. *)
Theorem IsStateValidOrRestoring_depends_on_mState_only (n1 n2 : Neighbor) :
  (mState n1 = mState n2 ->
   IsStateValidOrRestoring n1 = IsStateValidOrRestoring n2) /\
  snd (call_const IsStateValidOrRestoring n1) = n1 /\
  (forall addr heard u key mode dreq fails info,
     IsStateValidOrRestoring
       (mkNeighbor addr heard u key (mState n1) mode dreq fails info)
     = IsStateValidOrRestoring n1).
Proof.
  split; [|split].
  - intros H. unfold IsStateValidOrRestoring. rewrite H. reflexivity.
  - reflexivity.
  - intros. reflexivity.
Qed.

Lemma IsStateValidOrRestoring_depends_on_mState_only_witness :
  IsStateValidOrRestoring
    (sample_neighbor kStateValid (mValid sample_valid_info))
  = IsStateValidOrRestoring
      (mkNeighbor [] 0 (mPending sample_pending_info) 0 6 0 true 9
         (mkLinkQualityInfo 0 0 0)).
Proof.
  apply (proj1 (IsStateValidOrRestoring_depends_on_mState_only
                  (sample_neighbor kStateValid (mValid sample_valid_info))
                  (mkNeighbor [] 0 (mPending sample_pending_info) 0 6 0 true 9
                     (mkLinkQualityInfo 0 0 0)))).
  reflexivity.
Defined.

(** C10. Each of the seven enumerators of [State] fits the three bits of
    [mState]: its value is below 2^3, and storing it into [mState] and
    reading the member back gives the same enumerator. *)
Theorem mState_store_read_roundtrip (n : Neighbor) (s : State) :
  0 <= State_value s <= 6 /\
  fits 3 (State_value s) /\
  mState (Neighbor_set_mState n s) = State_value s /\
  Neighbor_state (Neighbor_set_mState n s) = Some s.
Proof.
  assert (Hfit : fits 3 (State_value s)) by (destruct s; unfold fits; simpl; lia).
  assert (Hst : mState (Neighbor_set_mState n s) = State_value s)
    by (simpl; apply bitfield_store_id; exact Hfit).
  repeat split; try apply State_value_range; try apply Hfit; [exact Hst|].
  apply Neighbor_state_Some. exact Hst.
Qed.

(** Were [mState] a signed bit-field, as it would be with a signed
    underlying type of [enum State], [kStateValid] would not survive the
    three bits; the header spells the underlying type out as
    [unsigned int] where the compiler would choose a signed one. *)
Example kStateValid_in_signed_bitfield :
  bitfield_read_signed 3 (bitfield_store 3 (State_value kStateValid)) = -2.
Proof. reflexivity. Qed.

(** ** Router bit-fields *)

Lemma Router_store_fields_fit (r : Router) (op : RouterStore) :
  Router_fields_fit r -> Router_fields_fit (Router_store r op).
Proof.
  intros [Hq Hc]. destruct op; simpl; split; simpl;
    try assumption; apply bitfield_store_fits; lia.
Qed.

Lemma Router_stores_fields_fit (ops : list RouterStore) (r : Router) :
  Router_fields_fit r -> Router_fields_fit (Router_stores r ops).
Proof.
  unfold Router_stores. revert r.
  induction ops as [|op ops IH]; intros r Hr; simpl; [exact Hr|].
  apply IH, Router_store_fields_fit, Hr.
Qed.

(** C5. Whatever is stored into a [Router], its [mCost] stays between 0 and
    15 and its [mLinkQualityOut] between 0 and 3, and a store of [v] into
    either member leaves [v] reduced modulo 2^4, respectively 2^2, there. *)
Theorem Router_cost_and_quality_within_width
    (r : Router) (ops : list RouterStore) (v : Z) :
  Router_fields_fit r ->
  let r' := Router_stores r ops in
  0 <= mCost r' <= 15 /\
  0 <= mLinkQualityOut r' <= 3 /\
  mCost (Router_set_mCost r' v) = v mod 2 ^ 4 /\
  mLinkQualityOut (Router_set_mLinkQualityOut r' v) = v mod 2 ^ 2.
Proof.
  intros Hr r'.
  destruct (Router_stores_fields_fit ops r Hr) as [Hq Hc].
  fold r' in Hq, Hc. unfold fits in Hq, Hc.
  change (2 ^ 2) with 4 in *. change (2 ^ 4) with 16 in *.
  repeat split; try lia; reflexivity.
Qed.

(** A capped path cost is stored as it is: the cap keeps it clear of the
    wrap-around of the 4-bit store. *)
Lemma capped_cost_is_stored (r : Router) (linkCost nextHopCost : Z) :
  0 <= linkCost -> 0 <= nextHopCost ->
  mCost (Router_set_mCost r (path_cost linkCost nextHopCost))
  = path_cost linkCost nextHopCost.
Proof.
  intros Ha Hb. simpl. apply bitfield_store_id.
  unfold fits, path_cost. change (2 ^ 4) with 16. lia.
Qed.

Example path_cost_scenario :
  mCost (Router_set_mCost sample_router (path_cost 2 3)) = 5 /\
  mCost (Router_set_mCost sample_router (path_cost 9 12)) = 15.
Proof. split; reflexivity. Qed.

Lemma Router_cost_and_quality_within_width_witness :
  let r' := Router_stores sample_router [StoreCost 21; StoreLinkQualityOut 6] in
  0 <= mCost r' <= 15 /\
  0 <= mLinkQualityOut r' <= 3 /\
  mCost (Router_set_mCost r' 37) = 37 mod 2 ^ 4 /\
  mLinkQualityOut (Router_set_mLinkQualityOut r' 37) = 37 mod 2 ^ 2.
Proof.
  apply (Router_cost_and_quality_within_width sample_router
           [StoreCost 21; StoreLinkQualityOut 6] 37).
  unfold Router_fields_fit, fits; simpl; lia.
Defined.

(** ** The state-dependent payload *)

Lemma Neighbor_state_set_mState (n : Neighbor) (s : State) :
  Neighbor_state (Neighbor_set_mState n s) = Some s.
Proof.
  apply Neighbor_state_Some. simpl. apply bitfield_store_id.
  destruct s; unfold fits; simpl; lia.
Qed.

Lemma attached_states_iff (n : Neighbor) :
  IsStateValidOrRestoring n = true <->
  Neighbor_state n = Some kStateValid \/
  Neighbor_state n = Some kStateRestored \/
  Neighbor_state n = Some kStateChildUpdateRequest.
Proof. rewrite !Neighbor_state_Some. apply IsStateValidOrRestoring_true. Qed.

Lemma union_one_member_active (n : Neighbor) :
  (is_Some (Neighbor_mValid n) /\ Neighbor_mPending n = None) \/
  (Neighbor_mValid n = None /\ is_Some (Neighbor_mPending n)).
Proof.
  unfold Neighbor_mValid, Neighbor_mPending.
  destruct (mUnion n); [left | right]; split; eauto.
Qed.

Section AttachFsmFacts.
Import AttachFsm.

Lemma transition_payload_matches_state (n n' : Neighbor) (e : Event) :
  payload_matches_state n -> transition n e = Some n' ->
  payload_matches_state n'.
Proof.
  unfold transition, payload_matches_state. intros Hn Ht.
  destruct e as [target ch| |v| | |v];
    destruct (Neighbor_state n) as [[]|] eqn:Hs;
    try destruct target; try discriminate;
    injection Ht as <-; rewrite Neighbor_state_set_mState;
    try exact I; try exact Hn; unfold Neighbor_mValid, Neighbor_mPending;
    simpl; eauto.
Qed.

Lemma step_payload_matches_state (n : Neighbor) (e : Event) :
  payload_matches_state n -> payload_matches_state (step n e).
Proof.
  intros Hn. unfold step.
  destruct (transition n e) as [n'|] eqn:Ht; simpl; [|exact Hn].
  eapply transition_payload_matches_state; eassumption.
Qed.

Lemma run_payload_matches_state (es : list Event) (n : Neighbor) :
  payload_matches_state n -> payload_matches_state (run n es).
Proof.
  unfold run. revert n.
  induction es as [|e es IH]; intros n Hn; simpl; [exact Hn|].
  apply IH, step_payload_matches_state, Hn.
Qed.

(** C2. At every point of any run of the state machine, exactly one member
    of the payload union is the active one, and the state tells which: in
    Valid, Restored and ChildUpdateRequest it is the attached payload
    (frame counters and RLOC16), in ParentRequest, ChildIdRequest and
    LinkRequest it is the pending payload (challenge and its length); in
    neither case is the other member readable. *)
Theorem payload_interpretation_determined_by_state
    (n0 : Neighbor) (es : list Event) :
  payload_matches_state n0 ->
  let n := run n0 es in
  ((is_Some (Neighbor_mValid n) /\ Neighbor_mPending n = None) \/
   (Neighbor_mValid n = None /\ is_Some (Neighbor_mPending n))) /\
  (Neighbor_state n = Some kStateValid \/
   Neighbor_state n = Some kStateRestored \/
   Neighbor_state n = Some kStateChildUpdateRequest ->
   is_Some (Neighbor_mValid n) /\ Neighbor_mPending n = None) /\
  (Neighbor_state n = Some kStateParentRequest \/
   Neighbor_state n = Some kStateChildIdRequest \/
   Neighbor_state n = Some kStateLinkRequest ->
   is_Some (Neighbor_mPending n) /\ Neighbor_mValid n = None).
Proof.
  intros H0 n.
  pose proof (run_payload_matches_state es n0 H0) as Hn. fold n in Hn.
  unfold payload_matches_state in Hn.
  split; [apply union_one_member_active|].
  destruct (union_one_member_active n) as [[Hv Hp]|[Hv Hp]];
    split; intros [Hs|[Hs|Hs]]; rewrite Hs in Hn; split;
    try assumption; rewrite ?Hv, ?Hp in Hn;
    try (destruct Hn as [? [=]]); reflexivity.
Qed.

End AttachFsmFacts.

Lemma payload_interpretation_determined_by_state_witness :
  let n := AttachFsm.run
             (sample_neighbor kStateInvalid (mPending sample_pending_info))
             sample_attach_run in
  Neighbor_state n = Some kStateChildUpdateRequest /\
  is_Some (Neighbor_mValid n) /\ Neighbor_mPending n = None.
Proof.
  split; [reflexivity|].
  apply (payload_interpretation_determined_by_state
           (sample_neighbor kStateInvalid (mPending sample_pending_info))
           sample_attach_run).
  - exact I.
  - right; right; reflexivity.
Defined.

(** ** Replay protection *)

(** A frame with a counter above the stored one is accepted: the counter
    is stored and the time of the last frame heard moves on. *)
Lemma fresh_frame_accepted
    (now : Z) (f : Replay.Frame) (n : Neighbor) (v : ValidInfo) :
  IsStateValidOrRestoring n = true ->
  Neighbor_mValid n = Some v ->
  Replay.fKeySequence f = mKeySequence n ->
  Replay.stored_counter (Replay.fClass f) v < Replay.fCounter f ->
  Replay.Receive now f n = (Replay.Accepted, Replay.accept now f v n) /\
  mLastHeard (snd (Replay.Receive now f n)) = uint32_store now.
Proof.
  intros Hs Hv Hk Hc.
  assert (HR : Replay.Receive now f n = (Replay.Accepted, Replay.accept now f v n)).
  { unfold Replay.Receive. rewrite Hs, Hv, Hk, Z.eqb_refl. simpl.
    destruct (Z.ltb_spec (Replay.stored_counter (Replay.fClass f) v)
                (Replay.fCounter f)); [reflexivity | lia]. }
  rewrite HR. split; reflexivity.
Qed.

(** C3. A frame that presents, to an attached neighbor (state Valid,
    Restored or ChildUpdateRequest) and under the neighbor's own key
    sequence, a counter at or below the stored counter of its class is
    rejected as a replay, and the entry after the call is the entry before
    it: [mLastHeard], [mMode], [mLinkInfo] and every other member are
    unchanged. *)
Theorem replayed_frame_rejected_entry_unchanged
    (now : Z) (f : Replay.Frame) (n : Neighbor) (v : ValidInfo) :
  Neighbor_state n = Some kStateValid \/
  Neighbor_state n = Some kStateRestored \/
  Neighbor_state n = Some kStateChildUpdateRequest ->
  Neighbor_mValid n = Some v ->
  Replay.fKeySequence f = mKeySequence n ->
  Replay.fCounter f <= Replay.stored_counter (Replay.fClass f) v ->
  Replay.Receive now f n = (Replay.Rejected ReplayRejected, n) /\
  mLastHeard (snd (Replay.Receive now f n)) = mLastHeard n /\
  mMode (snd (Replay.Receive now f n)) = mMode n /\
  mLinkInfo (snd (Replay.Receive now f n)) = mLinkInfo n.
Proof.
  intros Hs Hv Hk Hc.
  assert (HR : Replay.Receive now f n = (Replay.Rejected ReplayRejected, n)).
  { unfold Replay.Receive.
    rewrite (proj2 (attached_states_iff n) Hs), Hv, Hk, Z.eqb_refl. simpl.
    destruct (Z.ltb_spec (Replay.stored_counter (Replay.fClass f) v)
                (Replay.fCounter f)); [lia | reflexivity]. }
  rewrite HR. auto.
Qed.

Lemma replayed_frame_rejected_entry_unchanged_witness :
  let n := sample_neighbor kStateValid (mValid sample_valid_info) in
  Replay.Receive 2000 (Replay.mkFrame Replay.LinkFrame 100 7) n
  = (Replay.Rejected ReplayRejected, n).
Proof.
  apply (replayed_frame_rejected_entry_unchanged 2000
           (Replay.mkFrame Replay.LinkFrame 100 7)
           (sample_neighbor kStateValid (mValid sample_valid_info))
           sample_valid_info).
  - left; reflexivity.
  - reflexivity.
  - reflexivity.
  - simpl; lia.
Defined.

(** ** Indirect delivery: the in-flight slot and the queued count *)

Lemma uint16_store_id (v : Z) : 0 <= v <= 65535 -> uint16_store v = v.
Proof.
  intros Hv. unfold uint16_store. apply bitfield_store_id.
  unfold fits. change (2 ^ 16) with 65536. lia.
Qed.

Section IndirectSenderFacts.
Import IndirectSender.

Variable kRetryCap : Z.
Variable kQueueDepth : Z.
Hypothesis kQueueDepth_uint16 : kQueueDepth <= 65535.

Local Abbreviation step := (step kRetryCap kQueueDepth).
Local Abbreviation run := (run kRetryCap kQueueDepth).

(** The cases of [step]: the event, whether a message is in flight, and
    the tests of the queue depth and of the retry cap. *)
Local Ltac step_cases s e Hfl :=
  destruct e as [?m ?sec|?dsn|[|] ?sec];
  destruct (in_flight (sChild s)) as [?m0|] eqn:Hfl;
  repeat match goal with
         | |- context [if ?b then _ else _] => destruct b eqn:?
         | H : context [if ?b then _ else _] |- _ => destruct b eqn:?
         end.

Lemma promote_idle_empty (sec : Security) (s : Sender) :
  idle_empty (promote sec s).
Proof.
  unfold idle_empty, promote, in_flight.
  destruct (sQueue s) as [|m q]; simpl; [reflexivity | discriminate].
Qed.

Lemma step_idle_empty (s : Sender) (e : Event) :
  idle_empty s -> idle_empty (fst (step s e)).
Proof.
  intros Hs. unfold IndirectSender.step.
  step_cases s e Hfl;
    simpl; try exact Hs; try apply promote_idle_empty;
    unfold idle_empty, in_flight in *; simpl; rewrite ?Hfl; discriminate.
Qed.

Lemma step_consistent (s : Sender) (e : Event) :
  consistent s -> consistent (fst (step s e)).
Proof.
  intros (Hcnt & Hfit & Hidle).
  cut (mQueuedIndirectMessageCnt (sChild (fst (step s e)))
       = Z.of_nat (length (sQueue (fst (step s e)))) /\
       fits 16 (mQueuedIndirectMessageCnt (sChild (fst (step s e))))).
  { intros [H1 H2]. split; [exact H1|split; [exact H2|]].
    apply step_idle_empty, Hidle. }
  unfold fits in *. change (2 ^ 16) with 65536 in *.
  unfold IndirectSender.step, promote.
  step_cases s e Hfl;
    simpl; try destruct (sQueue s) as [|m1 q] eqn:Hq; simpl in *;
    repeat match goal with
           | H : (_ <? _) = true |- _ => apply Z.ltb_lt in H
           end;
    rewrite ?uint16_store_id by lia; rewrite ?length_app; simpl; lia.
Qed.

Lemma run_consistent (es : list Event) (s : Sender) :
  consistent s -> consistent (fst (run s es)).
Proof.
  revert s. induction es as [|e es IH]; intros s Hs; simpl; [exact Hs|].
  pose proof (step_consistent s e Hs) as H1.
  destruct (step s e) as [s1 out1]. simpl in H1.
  specialize (IH s1 H1). destruct (run s1 es) as [s2 out2]. exact IH.
Qed.

(** C4. Throughout any run of the delivery protocol a Child has its single
    in-flight slot, so at most one indirect message is in flight, and
    [mQueuedIndirectMessageCnt] is the number of messages waiting behind
    that slot: the messages held for the child are the in-flight one plus
    as many as the count says, and nothing waits behind an empty slot. *)
Theorem one_in_flight_and_count_of_queued (s0 : Sender) (es : list Event) :
  consistent s0 ->
  let s := fst (run s0 es) in
  (length (option_list (in_flight (sChild s))) <= 1)%nat /\
  mQueuedIndirectMessageCnt (sChild s) = Z.of_nat (length (sQueue s)) /\
  Z.of_nat (length (held s)) =
    Z.of_nat (length (option_list (in_flight (sChild s))))
    + mQueuedIndirectMessageCnt (sChild s) /\
  (in_flight (sChild s) = None -> mQueuedIndirectMessageCnt (sChild s) = 0).
Proof.
  intros H0 s. destruct (run_consistent es s0 H0) as (Hcnt & _ & Hidle).
  fold s in Hcnt, Hidle. unfold held, idle_empty in *.
  destruct (in_flight (sChild s)) as [m|]; simpl.
  - repeat split; try lia. discriminate.
  - rewrite Hcnt, (Hidle eq_refl). simpl. repeat split; lia.
Qed.

(** *** First in, first out *)

Lemma promote_held (sec : Security) (s : Sender) (m : Z) :
  in_flight (sChild s) = Some m -> m :: held (promote sec s) = held s.
Proof.
  intros Hfl. unfold held, promote. rewrite Hfl.
  destruct (sQueue s) as [|m1 q]; reflexivity.
Qed.

(** What a step finishes leaves the held messages at their front, what it
    takes over joins them at their back. *)
Lemma step_held (s s1 : Sender) (e : Event) (out : list Output) :
  idle_empty s -> step s e = (s1, out) ->
  finished out ++ held s1 = held s ++ taken out.
Proof.
  intros Hidle Hstep. unfold IndirectSender.step in Hstep.
  unfold idle_empty in Hidle.
  step_cases s e Hfl;
    injection Hstep as <- <-; simpl; rewrite ?app_nil_r;
    try (apply promote_held, Hfl);
    unfold held, in_flight in *; simpl; rewrite ?Hfl;
    try rewrite (Hidle eq_refl); reflexivity.
Qed.

(** A step reports at most one thing, and a transmission only of the
    message at the front of the held ones. *)
Lemma step_output (s s1 : Sender) (e : Event) (out : list Output) :
  step s e = (s1, out) ->
  out = [] \/
  exists o, out = [o] /\
    forall m fc off kid dsn, o = Transmit m fc off kid dsn ->
      exists q, held s = m :: q.
Proof.
  unfold IndirectSender.step.
  step_cases s e Hfl;
    intros [= <- <-]; auto; right; eexists; (split; [reflexivity|]);
    try discriminate.
  intros m fc off kid dsn' [= <- _ _ _ _].
  unfold held. rewrite Hfl. eauto.
Qed.

Lemma run_held (es : list Event) (s s' : Sender) (log : list Output) :
  idle_empty s -> run s es = (s', log) ->
  finished log ++ held s' = held s ++ taken log.
Proof.
  revert s log. induction es as [|e es IH]; intros s log Hs; simpl.
  - intros [= <- <-]. simpl. rewrite app_nil_r. reflexivity.
  - destruct (step s e) as [s1 out1] eqn:Hstep.
    destruct (run s1 es) as [s2 out2] eqn:Hrun.
    intros [= -> <-].
    pose proof (step_idle_empty s e Hs) as Hs1. rewrite Hstep in Hs1.
    unfold taken, finished. rewrite !omap_app.
    fold (taken out1) (taken out2) (finished out1) (finished out2).
    rewrite <- app_assoc, (IH s1 out2 Hs1 Hrun), !app_assoc.
    f_equal. apply (step_held s s1 e out1 Hs Hstep).
Qed.

(** When a message is put on the air, everything taken over before it has
    finished, and it is the oldest message not yet finished. *)
Lemma transmit_at_front (es : list Event) (s s' : Sender)
    (log pre post : list Output) (m fc off kid dsn : Z) :
  idle_empty s -> run s es = (s', log) ->
  log = pre ++ Transmit m fc off kid dsn :: post ->
  exists rest, held s ++ taken pre = finished pre ++ m :: rest.
Proof.
  revert s log pre. induction es as [|e es IH]; intros s log pre Hs; simpl.
  - intros [= _ <-] Hlog. destruct pre; discriminate.
  - destruct (step s e) as [s1 out1] eqn:Hstep.
    destruct (run s1 es) as [s2 out2] eqn:Hrun.
    intros [= -> <-] Hlog.
    pose proof (step_idle_empty s e Hs) as Hs1. rewrite Hstep in Hs1.
    pose proof (step_held s s1 e out1 Hs Hstep) as Hheld.
    destruct (step_output s s1 e out1 Hstep) as [->|(o & -> & Ho)].
    + simpl in *. destruct (IH s1 out2 pre Hs1 Hrun Hlog) as [rest Hrest].
      exists rest. rewrite app_nil_r in Hheld. rewrite <- Hheld. exact Hrest.
    + destruct pre as [|o' pre2]; simpl in Hlog.
      * injection Hlog as -> _.
        destruct (Ho _ _ _ _ _ eq_refl) as [q Hq].
        exists q. simpl. rewrite app_nil_r. exact Hq.
      * injection Hlog as <- Hlog.
        destruct (IH s1 out2 pre2 Hs1 Hrun Hlog) as [rest Hrest].
        exists rest.
        change (o :: pre2) with ([o] ++ pre2).
        unfold taken, finished in *. rewrite !omap_app.
        rewrite app_assoc, <- Hheld, <- !app_assoc. f_equal. exact Hrest.
Qed.

(** C7. In any run of the delivery protocol for one child, started with
    nothing held: when a message [M2] is put on the air it is the oldest
    message taken over and not yet finished, so every message [M1] taken
    over before [M2] has by then been delivered or dropped by retry
    exhaustion; and the messages finish in the order in which they were
    taken over.  (Where the statement names messages by identity, the
    identities taken over in the run are distinct, as those of live buffers
    are.) *)
Theorem indirect_delivery_is_fifo
    (s0 s : Sender) (es : list Event) (log pre post : list Output)
    (M2 fc off kid dsn : Z) :
  in_flight (sChild s0) = None -> sQueue s0 = [] ->
  run s0 es = (s, log) ->
  log = pre ++ Transmit M2 fc off kid dsn :: post ->
  (taken log !! length (finished pre) = Some M2 /\
   finished pre `prefix_of` taken log) /\
  (forall (i j : nat) (M1 : Z),
     NoDup (taken log) ->
     taken log !! i = Some M1 -> taken log !! j = Some M2 -> (i < j)%nat ->
     Delivered M1 ∈ pre \/ exists e, Dropped M1 e ∈ pre) /\
  finished log `prefix_of` taken log.
Proof.
  intros Hidle Hq0 Hrun Hlog.
  destruct (transmit_at_front es s0 s log pre post M2 fc off kid dsn
              (fun _ => Hq0) Hrun Hlog) as [rest Hrest].
  assert (Hheld0 : held s0 = []).
  { unfold held. rewrite Hidle. exact Hq0. }
  rewrite Hheld0 in Hrest. simpl in Hrest.
  assert (Htaken : taken log = finished pre ++ M2 :: rest ++ taken post).
  { rewrite Hlog. unfold taken at 1. rewrite omap_app. simpl.
    fold (taken pre) (taken post). rewrite Hrest, <- app_assoc. reflexivity. }
  assert (Hfront : taken log !! length (finished pre) = Some M2).
  { rewrite Htaken. apply list_lookup_middle. reflexivity. }
  split; [split; [exact Hfront | eexists; exact Htaken]|].
  split.
  - intros i j M1 Hnd Hi Hj Hij.
    pose proof (NoDup_lookup _ _ _ _ Hnd Hj Hfront) as ->.
    rewrite Htaken, lookup_app_l in Hi by exact Hij.
    assert (Hin : M1 ∈ finished pre) by (apply list_elem_of_lookup; eauto).
    apply list_elem_of_omap in Hin as (o & Ho & Hf).
    destruct o; try discriminate; injection Hf as ->; eauto.
  - exists (held s).
    rewrite (run_held es s0 s log (fun _ => Hq0) Hrun), Hheld0. reflexivity.
Qed.

End IndirectSenderFacts.

Lemma one_in_flight_and_count_of_queued_witness :
  let s := fst (IndirectSender.run 2 4 sample_sender sample_delivery) in
  (length (option_list (IndirectSender.in_flight (IndirectSender.sChild s))) <= 1)%nat /\
  mQueuedIndirectMessageCnt (IndirectSender.sChild s)
  = Z.of_nat (length (IndirectSender.sQueue s)) /\
  Z.of_nat (length (IndirectSender.held s)) =
    Z.of_nat (length (option_list (IndirectSender.in_flight (IndirectSender.sChild s))))
    + mQueuedIndirectMessageCnt (IndirectSender.sChild s) /\
  (IndirectSender.in_flight (IndirectSender.sChild s) = None ->
   mQueuedIndirectMessageCnt (IndirectSender.sChild s) = 0).
Proof.
  apply (one_in_flight_and_count_of_queued 2 4).
  - lia.
  - unfold IndirectSender.consistent, fits. simpl. repeat split; lia.
Defined.

Lemma indirect_delivery_is_fifo_witness :
  let pre := take 5 (snd (IndirectSender.run 2 4 sample_sender sample_delivery)) in
  IndirectSender.Delivered 11 ∈ pre \/
  exists e, IndirectSender.Dropped 11 e ∈ pre.
Proof.
  refine (proj1 (proj2 (indirect_delivery_is_fifo 2 4
           sample_sender
           (fst (IndirectSender.run 2 4 sample_sender sample_delivery))
           sample_delivery
           (snd (IndirectSender.run 2 4 sample_sender sample_delivery))
           (take 5 (snd (IndirectSender.run 2 4 sample_sender sample_delivery)))
           [] 12 5000 0 1 3 _ _ _ _)) 0%nat 1%nat 11 _ _ _ _).
  - reflexivity.
  - reflexivity.
  - reflexivity.
  - reflexivity.
  - vm_compute. apply NoDup_cons. split; [|apply NoDup_singleton].
    intros H. apply list_elem_of_singleton in H. discriminate.
  - reflexivity.
  - reflexivity.
  - lia.
Defined.

(** ** Registered addresses *)

Lemma Child_store_address_length (c c' : Child) (i : nat) (a : Ip6Address) :
  Child_store_address c i a = Some c' ->
  length (mIp6Address c') = length (mIp6Address c).
Proof.
  unfold Child_store_address.
  destruct (decide (i < length (mIp6Address c))%nat); [|discriminate].
  intros [= <-]. simpl. apply length_insert.
Qed.

Lemma Child_store_addresses_length
    (ws : list (nat * Ip6Address)) (c c' : Child) :
  Child_store_addresses c ws = Some c' ->
  length (mIp6Address c') = length (mIp6Address c).
Proof.
  revert c. induction ws as [|[i a] ws IH]; intros c; simpl.
  - intros [= <-]. reflexivity.
  - destruct (Child_store_address c i a) as [c1|] eqn:Hst; [|discriminate].
    intros Hws. rewrite (IH c1 Hws).
    eapply Child_store_address_length, Hst.
Qed.

(** C6. The addresses of a Child are held in the array [mIp6Address] of
    [kMaxIp6AddressPerChild] elements, and no assignment to its elements
    changes that number: whichever of the elements count as registered,
    there are never more than [kMaxIp6AddressPerChild] of them.  (That they
    are free of duplicates is not something the Child keeps.) *)
Theorem registered_addresses_within_array
    (kMaxIp6AddressPerChild : nat) (c c' : Child)
    (ws : list (nat * Ip6Address)) (registered : list Ip6Address) :
  length (mIp6Address c) = kMaxIp6AddressPerChild ->
  Child_store_addresses c ws = Some c' ->
  registered `sublist_of` mIp6Address c' ->
  length (mIp6Address c') = kMaxIp6AddressPerChild /\
  (length registered <= kMaxIp6AddressPerChild)%nat.
Proof.
  intros Hlen Hws Hsub.
  assert (Hlen' : length (mIp6Address c') = kMaxIp6AddressPerChild).
  { rewrite (Child_store_addresses_length ws c c' Hws). exact Hlen. }
  split; [exact Hlen'|].
  rewrite <- Hlen'. apply sublist_length, Hsub.
Qed.

Lemma registered_addresses_within_array_witness :
  Child_store_addresses sample_child_addresses
    [(1%nat, sample_address 1); (0%nat, sample_address 2)]
  = Some (Child_set_mIp6Address sample_child
            [sample_address 2; sample_address 1]) /\
  length [sample_address 2; sample_address 1] = 2%nat /\
  (length [sample_address 1] <= 2)%nat.
Proof.
  split; [reflexivity|].
  apply (registered_addresses_within_array 2 sample_child_addresses
           (Child_set_mIp6Address sample_child
              [sample_address 2; sample_address 1])
           [(1%nat, sample_address 1); (0%nat, sample_address 2)]
           [sample_address 1]).
  - reflexivity.
  - reflexivity.
  - simpl. apply sublist_cons, sublist_skip, sublist_nil.
Defined.

(** An address assigned to two elements of the array is held twice: the
    Child does not keep its addresses free of duplicates. *)
Lemma registered_addresses_may_repeat :
  exists c',
    Child_store_addresses sample_child_addresses
      [(0%nat, sample_address 1); (1%nat, sample_address 1)] = Some c' /\
    mIp6Address c' = [sample_address 1; sample_address 1] /\
    (length (mIp6Address c') <= 2)%nat /\
    ~ NoDup (mIp6Address c').
Proof.
  eexists. split; [reflexivity|]. split; [reflexivity|]. simpl.
  split; [lia|].
  intros Hnd. apply NoDup_cons in Hnd as [Hnotin _].
  apply Hnotin. apply list_elem_of_here.
Qed.

(** ** Table capacity *)

(** Once slot [i] of an array satisfies [P], the first slot that does is at
    or before [i]; it is [i] itself if no slot did before. *)
Lemma list_find_after_insert {A : Type} (P : A -> Prop)
    `{!forall x, Decision (P x)} (l : list A) (i : nat) (x : A) :
  (i < length l)%nat -> P x ->
  exists j y, list_find P (<[i:=x]> l) = Some (j, y) /\ (j <= i)%nat /\
              (Forall (fun z => ~ P z) l -> j = i /\ y = x).
Proof.
  intros Hi Px.
  destruct (list_find P (<[i:=x]> l)) as [[j y]|] eqn:Hfind.
  - apply list_find_Some in Hfind as (Hj & Py & Hmin).
    exists j, y. split; [reflexivity|]. split.
    + destruct (decide (j <= i)%nat) as [Hle|Hgt]; [exact Hle|].
      exfalso. apply (Hmin i x); [apply list_lookup_insert_eq, Hi | lia | exact Px].
    + intros Hall. destruct (decide (j = i)) as [->|Hne].
      * rewrite list_lookup_insert_eq in Hj by exact Hi.
        injection Hj as ->. split; reflexivity.
      * rewrite list_lookup_insert_ne in Hj by auto.
        exfalso. exact (proj1 (Forall_lookup _ l) Hall j y Hj Py).
  - apply list_find_None in Hfind.
    exfalso. apply (proj1 (Forall_lookup _ _) Hfind i x); [|exact Px].
    apply list_lookup_insert_eq, Hi.
Qed.

Section TopologyTableFacts.
Import TopologyTable.

Lemma Allocate_full (k : Kind) (t : Table) :
  no_free_slot k t -> Allocate k t = (inl TableFull, t).
Proof.
  destruct k; simpl; intros Hfull;
    rewrite (proj2 (list_find_None _ _) Hfull); reflexivity.
Qed.

Lemma Release_reclaiming (t : Table) (i : nat) (r : Router) :
  mRouters t !! i = Some r -> mAllocated r = true ->
  reclaiming (Release KindRouter i t) i.
Proof.
  intros Hi Ha. unfold Release. rewrite Hi, Ha. eexists. simpl.
  split; [apply list_lookup_insert_eq; eapply lookup_lt_Some, Hi|].
  split; reflexivity.
Qed.

(** While a router slot is held back, no operation other than the end of
    its reclaim delay frees it, and no allocation hands it out. *)
Lemma perform_reclaiming (t : Table) (i : nat) (op : Op) :
  reclaiming t i -> op <> OpReclaimDelayElapsed i ->
  reclaiming (perform t op).1 i /\
  (perform t op).2 <> Allocated KindRouter i.
Proof.
  intros (r & Hi & Ha & Hd) Hop. unfold reclaiming.
  destruct op as [[|]|[|] j|j]; simpl.
  - destruct (list_find child_slot_free (mChildren t)) as [[j cs]|];
      simpl; split; eauto; discriminate.
  - destruct (list_find router_slot_free (mRouters t)) as [[j r']|] eqn:Hf;
      simpl; [|split; eauto; discriminate].
    apply list_find_Some in Hf as (Hj & [_ Hfree] & _).
    assert (Hne : j <> i) by (intros ->; congruence).
    split; [|congruence].
    exists r. rewrite list_lookup_insert_ne by exact Hne. auto.
  - split; [|discriminate].
    destruct (mChildren t !! j) as [cs|]; [destruct (slotTaken cs)|];
      simpl; eauto.
  - split; [|discriminate].
    destruct (mRouters t !! j) as [r'|] eqn:Hj; [|eauto].
    destruct (mAllocated r') eqn:Ha'; [|eauto].
    assert (Hne : j <> i) by (intros ->; congruence).
    exists r. simpl. rewrite list_lookup_insert_ne by exact Hne. auto.
  - split; [|discriminate].
    assert (Hne : j <> i) by congruence.
    unfold ReclaimDelayElapsed.
    destruct (mRouters t !! j) as [r'|]; [|eauto].
    exists r. simpl. rewrite list_lookup_insert_ne by exact Hne. auto.
Qed.

Lemma run_reclaiming (ops : list Op) (t : Table) (i : nat) :
  reclaiming t i -> OpReclaimDelayElapsed i ∉ ops ->
  Allocated KindRouter i ∉ (run t ops).2.
Proof.
  revert t. induction ops as [|op ops IH]; intros t Ht Hops; simpl.
  - apply not_elem_of_nil.
  - apply not_elem_of_cons in Hops as [Hop Hops].
    destruct (perform_reclaiming t i op Ht (not_eq_sym Hop)) as [Ht1 Hr].
    destruct (perform t op) as [t1 r1]. simpl in Ht1, Hr.
    specialize (IH t1 Ht1 Hops). destruct (run t1 ops) as [t2 rs].
    simpl in *. apply not_elem_of_cons. split; [congruence | exact IH].
Qed.

Lemma Release_child_then_Allocate (t : Table) (i : nat) (cs : ChildSlot) :
  mChildren t !! i = Some cs -> slotTaken cs = true ->
  exists j t', Allocate KindChild (Release KindChild i t) = (inr j, t') /\
               (j <= i)%nat /\ (no_free_slot KindChild t -> j = i).
Proof.
  intros Hi Ht. unfold Release. rewrite Hi, Ht. simpl.
  destruct (list_find_after_insert child_slot_free (mChildren t) i
              (mkChildSlot false (invalidated_child (slotChild cs))))
    as (j & y & Hf & Hle & Hfull);
    [eapply lookup_lt_Some, Hi | reflexivity |].
  rewrite Hf. do 2 eexists. split; [reflexivity|].
  split; [exact Hle|]. intros H. apply Hfull, H.
Qed.

Lemma Release_router_full (t : Table) (i : nat) (r : Router) :
  mRouters t !! i = Some r -> mAllocated r = true ->
  no_free_slot KindRouter t ->
  no_free_slot KindRouter (Release KindRouter i t).
Proof.
  intros Hi Ha Hfull. unfold Release. rewrite Hi, Ha. simpl in *.
  apply Forall_insert; [exact Hfull|].
  intros [_ Hd]. discriminate.
Qed.

Lemma Reclaimed_router_then_Allocate (t : Table) (i : nat) (r : Router) :
  mRouters t !! i = Some r -> mAllocated r = true ->
  exists j t',
    Allocate KindRouter (ReclaimDelayElapsed i (Release KindRouter i t))
    = (inr j, t') /\
    (j <= i)%nat /\ (no_free_slot KindRouter t -> j = i).
Proof.
  intros Hi Ha.
  pose proof (Release_router_full t i r Hi Ha) as Hfull'.
  destruct (Release_reclaiming t i r Hi Ha) as (r' & Hi' & Ha' & Hd').
  generalize dependent (Release KindRouter i t). intros t1 Hfull' Hi'.
  unfold ReclaimDelayElapsed. rewrite Hi'. simpl.
  destruct (list_find_after_insert router_slot_free
              (mRouters t1) i
              (Router_set_mReclaimDelay r' false))
    as (j & y & Hf & Hle & Hfull);
    [eapply lookup_lt_Some, Hi' | split; [exact Ha' | reflexivity] |].
  rewrite Hf. do 2 eexists. split; [reflexivity|].
  split; [exact Hle|]. intros H. apply Hfull, Hfull', H.
Qed.

(** C8. With no free slot of the requested kind, [Allocate] returns
    TableFull and the table, hence every entry in it, is as before.  After
    the release of a taken child slot the next [Allocate] succeeds at once,
    with that very slot if the table was full.  After the release of an
    allocated router slot no allocation hands the slot out until its
    reclaim delay has elapsed (a table that was full is still full); once it
    has elapsed, [Allocate] succeeds, with that very slot if the table was
    full. *)
Theorem allocate_full_and_release_reuse (t : Table) :
  (forall k, no_free_slot k t -> Allocate k t = (inl TableFull, t)) /\
  (forall i cs, mChildren t !! i = Some cs -> slotTaken cs = true ->
     exists j t', Allocate KindChild (Release KindChild i t) = (inr j, t') /\
                  (j <= i)%nat /\ (no_free_slot KindChild t -> j = i)) /\
  (forall i r, mRouters t !! i = Some r -> mAllocated r = true ->
     (forall ops, OpReclaimDelayElapsed i ∉ ops ->
        Allocated KindRouter i ∉ (run (Release KindRouter i t) ops).2) /\
     (no_free_slot KindRouter t ->
        Allocate KindRouter (Release KindRouter i t)
        = (inl TableFull, Release KindRouter i t)) /\
     exists j t',
       Allocate KindRouter (ReclaimDelayElapsed i (Release KindRouter i t))
       = (inr j, t') /\
       (j <= i)%nat /\ (no_free_slot KindRouter t -> j = i)).
Proof.
  split; [intros k; apply Allocate_full|].
  split; [intros i cs; apply Release_child_then_Allocate|].
  intros i r Hi Ha. split; [|split].
  - intros ops. apply run_reclaiming. eapply Release_reclaiming; eassumption.
  - intros Hfull. apply Allocate_full.
    eapply Release_router_full; eassumption.
  - eapply Reclaimed_router_then_Allocate; eassumption.
Qed.

End TopologyTableFacts.

Lemma sample_table_full (k : TopologyTable.Kind) :
  TopologyTable.no_free_slot k sample_table.
Proof.
  destruct k; simpl; repeat constructor.
  - intros H; discriminate H.
  - intros H; discriminate H.
  - intros [H _]; discriminate H.
  - intros [H _]; discriminate H.
Defined.

Lemma allocate_full_and_release_reuse_witness :
  TopologyTable.Allocate TopologyTable.KindRouter sample_table
  = (inl TableFull, sample_table) /\
  (exists j t',
     TopologyTable.Allocate TopologyTable.KindChild
       (TopologyTable.Release TopologyTable.KindChild 1 sample_table)
     = (inr j, t') /\
     (j <= 1)%nat /\
     (TopologyTable.no_free_slot TopologyTable.KindChild sample_table -> j = 1%nat)) /\
  TopologyTable.Allocate TopologyTable.KindRouter
    (TopologyTable.Release TopologyTable.KindRouter 1 sample_table)
  = (inl TableFull,
     TopologyTable.Release TopologyTable.KindRouter 1 sample_table).
Proof.
  split; [|split].
  - apply (proj1 (allocate_full_and_release_reuse sample_table)
             TopologyTable.KindRouter).
    apply sample_table_full.
  - apply (proj1 (proj2 (allocate_full_and_release_reuse sample_table))
             1%nat (TopologyTable.mkChildSlot true sample_child));
      reflexivity.
  - apply (proj1 (proj2 (proj2 (proj2 (allocate_full_and_release_reuse
                                          sample_table))
                           1%nat sample_router eq_refl eq_refl))).
    apply sample_table_full.
Defined.

(** * Further properties of the header *)

(** ** The state of a neighbor under member stores *)

Lemma IsStateValidOrRestoring_of_state (n : Neighbor) (s : State) :
  Neighbor_state n = Some s ->
  IsStateValidOrRestoring n = valid_or_restoring s.
Proof.
  intros Hs. apply Neighbor_state_Some in Hs.
  unfold IsStateValidOrRestoring. rewrite Hs. destruct s; reflexivity.
Qed.

Lemma Neighbor_store_mState (n : Neighbor) (op : NeighborStore) :
  stores_state op = false -> mState (Neighbor_store n op) = mState n.
Proof. destruct op; simpl; intros H; try reflexivity; discriminate H. Qed.

Lemma Neighbor_stores_mState (ops : list NeighborStore) (n : Neighbor) :
  Forall (fun op => stores_state op = false) ops ->
  mState (Neighbor_stores n ops) = mState n.
Proof.
  unfold Neighbor_stores. revert n.
  induction ops as [|op ops IH]; intros n Hops; simpl; [reflexivity|].
  apply Forall_cons in Hops as [Hop Hops].
  rewrite (IH _ Hops). apply Neighbor_store_mState, Hop.
Qed.

Lemma Neighbor_stores_app (n : Neighbor) (ops1 ops2 : list NeighborStore) :
  Neighbor_stores n (ops1 ++ ops2)
  = Neighbor_stores (Neighbor_stores n ops1) ops2.
Proof. unfold Neighbor_stores. apply foldl_app. Qed.

(** X1. After any sequence of assignments to the members of a Neighbor,
    [IsStateValidOrRestoring] answers for the enumerator that was assigned to
    [mState] last, whatever was assigned to the other members before or
    after; and assignments to the other members alone leave its answer as it
    was. *)
Theorem IsStateValidOrRestoring_follows_last_state_store
    (n : Neighbor) (before after : list NeighborStore) (s : State) :
  Forall (fun op => stores_state op = false) after ->
  Neighbor_state (Neighbor_stores n (before ++ StoreState s :: after)) = Some s /\
  IsStateValidOrRestoring (Neighbor_stores n (before ++ StoreState s :: after))
  = valid_or_restoring s /\
  IsStateValidOrRestoring (Neighbor_stores n after) = IsStateValidOrRestoring n.
Proof.
  intros Hafter.
  assert (Hs : Neighbor_state
                 (Neighbor_stores n (before ++ StoreState s :: after)) = Some s).
  { rewrite Neighbor_stores_app. unfold Neighbor_state.
    change (StoreState s :: after) with ([StoreState s] ++ after).
    rewrite Neighbor_stores_app, (Neighbor_stores_mState after _ Hafter).
    apply Neighbor_state_set_mState. }
  split; [exact Hs|]. split.
  - apply IsStateValidOrRestoring_of_state, Hs.
  - unfold IsStateValidOrRestoring.
    rewrite (Neighbor_stores_mState after n Hafter). reflexivity.
Qed.

Lemma IsStateValidOrRestoring_follows_last_state_store_witness :
  IsStateValidOrRestoring
    (Neighbor_stores
       (sample_neighbor kStateInvalid (mPending sample_pending_info))
       ([StoreMode 3; StoreState kStateParentRequest]
          ++ StoreState kStateValid
          :: [StoreLastHeard 77; StoreUnion (mValid sample_valid_info);
              StoreMode 21; StoreDataRequest true]))
  = true.
Proof.
  refine (proj1 (proj2 (IsStateValidOrRestoring_follows_last_state_store
            (sample_neighbor kStateInvalid (mPending sample_pending_info))
            [StoreMode 3; StoreState kStateParentRequest]
            [StoreLastHeard 77; StoreUnion (mValid sample_valid_info);
             StoreMode 21; StoreDataRequest true]
            kStateValid _))).
  repeat constructor.
Defined.

(** X2. [IsStateValidOrRestoring] returns false exactly when the state is
    [kStateInvalid], [kStateParentRequest], [kStateChildIdRequest] or
    [kStateLinkRequest], or when [mState] holds a value that no enumerator
    has: the default branch of the switch takes all of these. *)
Theorem IsStateValidOrRestoring_false_iff (n : Neighbor) :
  IsStateValidOrRestoring n = false <->
  Neighbor_state n = Some kStateInvalid \/
  Neighbor_state n = Some kStateParentRequest \/
  Neighbor_state n = Some kStateChildIdRequest \/
  Neighbor_state n = Some kStateLinkRequest \/
  Neighbor_state n = None.
Proof.
  destruct (Neighbor_state n) as [s|] eqn:Hs.
  - rewrite (IsStateValidOrRestoring_of_state n s Hs).
    destruct s; simpl; split; intros H; try discriminate H; auto 6;
      repeat (destruct H as [H|H]; try discriminate H).
  - split; [auto 6|]. intros _. apply not_true_is_false.
    intros Ht. apply attached_states_iff in Ht.
    rewrite Hs in Ht. destruct Ht as [H|[H|H]]; discriminate H.
Qed.

Lemma IsStateValidOrRestoring_false_iff_witness :
  IsStateValidOrRestoring
    (mkNeighbor [] 0 (mPending sample_pending_info) 0 7 0 false 0
       sample_link_info) = false.
Proof.
  apply (proj2 (IsStateValidOrRestoring_false_iff
                  (mkNeighbor [] 0 (mPending sample_pending_info) 0 7 0 false 0
                     sample_link_info))).
  right; right; right; right; reflexivity.
Defined.

(** ** The enumerators and the three bits of mState *)

(** X6. An integer reads as the enumerator [s] exactly when it is the value
    of [s], distinct enumerators have distinct values, the integers that
    read as no enumerator are those outside 0..6, and of the eight values
    the three bits of [mState] can hold only 7 is none. *)
Theorem State_of_value_decodes (v : Z) (s s' : State) :
  (State_of_value v = Some s <-> v = State_value s) /\
  (State_value s = State_value s' -> s = s') /\
  (State_of_value v = None <-> v < 0 \/ 6 < v) /\
  (fits 3 v -> (State_of_value v = None <-> v = 7)).
Proof.
  assert (Hnone : State_of_value v = None <-> v < 0 \/ 6 < v).
  { unfold State_of_value.
    repeat match goal with
           | |- context [v =? ?k] => destruct (Z.eqb_spec v k)
           end; split; intros H; try discriminate H; try lia; reflexivity. }
  split; [|split; [|split]].
  - split; [apply State_of_value_Some|]. intros ->. apply State_of_value_value.
  - intros H.
    pose proof (State_of_value_value s) as H1. rewrite H in H1.
    rewrite State_of_value_value in H1. injection H1 as ->. reflexivity.
  - exact Hnone.
  - unfold fits. change (2 ^ 3) with 8. intros Hv. rewrite Hnone. lia.
Qed.

Lemma State_of_value_decodes_witness :
  State_of_value 7 = None /\ State_of_value 5 = Some kStateChildUpdateRequest.
Proof.
  split.
  - apply (proj2 (proj2 (proj2 (proj2
             (State_of_value_decodes 7 kStateInvalid kStateInvalid)))
             ltac:(unfold fits; simpl; lia))).
    reflexivity.
  - apply (proj2 (proj1
             (State_of_value_decodes 5 kStateChildUpdateRequest kStateInvalid))).
    reflexivity.
Defined.

(** ** What a bit-field keeps of the value stored *)

Lemma bitfield_store_eq_iff (w v : Z) :
  0 <= w -> bitfield_store w v = v <-> fits w v.
Proof.
  intros Hw. split.
  - intros <-. apply bitfield_store_fits, Hw.
  - apply bitfield_store_id.
Qed.

(** X3. A value assigned to [mCost], [mLinkQualityOut] or [mNextHop] is
    read back unchanged exactly when it lies in 0..15, 0..3, respectively
    0..255; no other value survives the store, and a cost from 16 to 31 is
    read back 16 lower. *)
Theorem Router_store_read_faithful_iff (r : Router) (v : Z) :
  (mCost (Router_set_mCost r v) = v <-> 0 <= v <= 15) /\
  (mLinkQualityOut (Router_set_mLinkQualityOut r v) = v <-> 0 <= v <= 3) /\
  (mNextHop (Router_set_mNextHop r v) = v <-> 0 <= v <= 255) /\
  (16 <= v <= 31 -> mCost (Router_set_mCost r v) = v - 16).
Proof.
  simpl. unfold uint8_store.
  rewrite !bitfield_store_eq_iff by lia. unfold fits.
  change (2 ^ 4) with 16. change (2 ^ 2) with 4. change (2 ^ 8) with 256.
  repeat split; try lia.
  intros Hv. unfold bitfield_store. change (2 ^ 4) with 16.
  symmetry. apply (Z.mod_unique v 16 1 (v - 16)); lia.
Qed.

Lemma Router_store_read_faithful_iff_witness :
  mCost (Router_set_mCost sample_router 9) = 9 /\
  mCost (Router_set_mCost sample_router 20) = 20 - 16.
Proof.
  split.
  - apply (proj2 (proj1 (Router_store_read_faithful_iff sample_router 9))). lia.
  - apply (proj2 (proj2 (proj2 (Router_store_read_faithful_iff sample_router 20)))).
    lia.
Defined.

Lemma Neighbor_store_fields_fit (n : Neighbor) (op : NeighborStore) :
  Neighbor_fields_fit n -> Neighbor_fields_fit (Neighbor_store n op).
Proof.
  intros (Hh & Hk & Hs & Hm & Hf).
  destruct op; unfold Neighbor_fields_fit; simpl;
    (split; [|split; [|split; [|split]]]); try assumption;
    unfold uint32_store, uint8_store; apply bitfield_store_fits; lia.
Qed.

(** X5. Whatever is assigned to the members of a Neighbor, [mState] stays
    within 0..7, [mMode] within 0..15, [mLinkFailures] within 0..255 and
    [mLastHeard] and [mKeySequence] below 2^32; an assignment of [v] to
    [mMode] or [mLinkFailures] leaves [v] reduced modulo 2^4, respectively
    2^8, there. *)
Theorem Neighbor_fields_within_width
    (n : Neighbor) (ops : list NeighborStore) (v : Z) :
  Neighbor_fields_fit n ->
  let n' := Neighbor_stores n ops in
  0 <= mState n' <= 7 /\
  0 <= mMode n' <= 15 /\
  0 <= mLinkFailures n' <= 255 /\
  0 <= mLastHeard n' < 2 ^ 32 /\
  0 <= mKeySequence n' < 2 ^ 32 /\
  mMode (Neighbor_set_mMode n' v) = v mod 2 ^ 4 /\
  mLinkFailures (Neighbor_set_mLinkFailures n' v) = v mod 2 ^ 8.
Proof.
  intros Hn n'.
  assert (Hn' : Neighbor_fields_fit n').
  { unfold n', Neighbor_stores. clear n'. revert n Hn.
    induction ops as [|op ops IH]; intros n Hn; simpl; [exact Hn|].
    apply IH, Neighbor_store_fields_fit, Hn. }
  destruct Hn' as (Hh & Hk & Hs & Hm & Hf). unfold fits in *.
  change (2 ^ 3) with 8 in Hs. change (2 ^ 4) with 16 in Hm.
  change (2 ^ 8) with 256 in Hf.
  repeat split; try lia; reflexivity.
Qed.

Lemma Neighbor_fields_within_width_witness :
  let n' := Neighbor_stores
              (sample_neighbor kStateValid (mValid sample_valid_info))
              [StoreMode 21; StoreLinkFailures 300; StoreLastHeard (-1)] in
  0 <= mState n' <= 7 /\
  0 <= mMode n' <= 15 /\
  0 <= mLinkFailures n' <= 255 /\
  0 <= mLastHeard n' < 2 ^ 32 /\
  0 <= mKeySequence n' < 2 ^ 32 /\
  mMode (Neighbor_set_mMode n' 37) = 37 mod 2 ^ 4 /\
  mLinkFailures (Neighbor_set_mLinkFailures n' 37) = 37 mod 2 ^ 8.
Proof.
  apply (Neighbor_fields_within_width
           (sample_neighbor kStateValid (mValid sample_valid_info))
           [StoreMode 21; StoreLinkFailures 300; StoreLastHeard (-1)] 37).
  unfold Neighbor_fields_fit, fits.
  repeat split; vm_compute; (reflexivity || discriminate).
Defined.
